(** * Verification of src/src/fee-estimator.ts (btc-congestion-manager)

    Shallow embedding of the pure parts of the fee-estimation pipeline:
    the packing [sortByFee], the mined-block detection and summary,
    the velocity/acceleration scan and the recommendation filter
    [feeDiff$] / [minDiff$].  Streams are modelled by the lists of the
    values they emit.  JavaScript numbers are modelled by exact rationals
    extended with NaN and the two infinities (rounding and signed zero are
    not modelled). *)

From Stdlib Require Import QArith ZArith String List Bool Permutation Lia.
From Stdlib Require Import Sorting.Sorted Lqa Qround Qabs.
Import ListNotations.

Open Scope Q_scope.

(** ** JavaScript numbers *)
Module JS.

Inductive num : Type :=
| Fin (q : Q)
| NaN
| PInf
| NInf.

(** Sign used by [SortCompare]: a NaN comparator result counts as +0. *)
Definition sign (a : num) : comparison :=
  match a with
  | Fin q => Qcompare q 0
  | PInf => Gt
  | NInf => Lt
  | NaN => Eq
  end.

(** A missing property ([undefined]) becomes NaN in arithmetic. *)
Definition of_field (o : option Q) : num :=
  match o with Some q => Fin q | None => NaN end.

Definition neg (a : num) : num :=
  match a with
  | Fin q => Fin (- q)
  | PInf => NInf
  | NInf => PInf
  | NaN => NaN
  end.

Definition add (a b : num) : num :=
  match a, b with
  | Fin x, Fin y => Fin (x + y)
  | NaN, _ | _, NaN => NaN
  | PInf, NInf | NInf, PInf => NaN
  | PInf, _ | _, PInf => PInf
  | NInf, _ | _, NInf => NInf
  end.

Definition sub (a b : num) : num := add a (neg b).

Definition mul (a b : num) : num :=
  match a, b with
  | Fin x, Fin y => Fin (x * y)
  | NaN, _ | _, NaN => NaN
  | _, _ =>
      match sign a, sign b with
      | Eq, _ | _, Eq => NaN
      | Gt, Gt | Lt, Lt => PInf
      | _, _ => NInf
      end
  end.

Definition div (a b : num) : num :=
  match a, b with
  | NaN, _ | _, NaN => NaN
  | Fin x, Fin y =>
      if Qeq_bool y 0 then
        match Qcompare x 0 with Eq => NaN | Gt => PInf | Lt => NInf end
      else Fin (x / y)
  | Fin _, _ => Fin 0
  | _, Fin y =>
      match sign a, Qcompare y 0 with
      | _, Eq => a
      | Gt, Gt | Lt, Lt => PInf
      | _, _ => NInf
      end
  | _, _ => NaN
  end.

(** [a <= b] *)
Definition le (a b : num) : bool :=
  match a, b with
  | NaN, _ | _, NaN => false
  | Fin x, Fin y => Qle_bool x y
  | NInf, _ => true
  | _, PInf => true
  | _, _ => false
  end.

(** [a >= b] *)
Definition ge (a b : num) : bool := le b a.

(** [a === 0] *)
Definition eq_zero (a : num) : bool :=
  match a with Fin q => Qeq_bool q 0 | _ => false end.

(** [Math.sqrt]: NaN below zero; on non-negative finite arguments the
    value is left to the parameter [sqrtQ] (an irrational root has no
    exact representation). *)
Definition sqrt (sqrtQ : Q -> Q) (a : num) : num :=
  match a with
  | Fin q => if Qle_bool 0 q then Fin (sqrtQ q) else NaN
  | PInf => PInf
  | _ => NaN
  end.

End JS.

Import JS.

(** ** [Array.prototype.sort]

    A stable insertion sort driven by [SortCompare]: [x] is placed before
    [y] exactly when [comparefn(x, y) < 0].  The language requires the
    sort to be stable, so for a consistent comparator every conforming
    implementation returns this list. *)
Section JsSort.
Context {A : Type} (cmp : A -> A -> num).

Fixpoint insert (x : A) (l : list A) : list A :=
  match l with
  | [] => [x]
  | y :: l' =>
      match sign (cmp x y) with
      | Lt => x :: l
      | _ => y :: insert x l'
      end
  end.

Definition jsort (l : list A) : list A :=
  fold_left (fun acc x => insert x acc) l [].

End JsSort.

(** ** The raw mempool and [sortByFee] *)

(** A raw entry of [getRawMemPool(true)]; both spellings of the
    descendant aggregates are optional properties. *)
Record RawTx : Type := {
  r_size : Q;
  r_fee : Q;
  r_descendantsize : option Q;
  r_descendantfees : option Q;
  r_descendentsize : option Q;
  r_descendentfees : option Q
}.

(** The mapping [txid -> entry], in [Object.keys] enumeration order. *)
Definition RawMempool := list (string * RawTx).

(** The object built by the first [.map] of [sortByFee]. *)
Record PreTx : Type := {
  p_size : Q;
  p_fee : Q;
  p_descendantsize : option Q;
  p_descendantfees : option Q;
  p_txid : string;
  p_feeRate : num
}.

Record MempoolTx : Type := {
  size : Q;
  fee : Q;
  descendantsize : option Q;
  descendantfees : option Q;
  txid : string;
  feeRate : num;
  cumSize : Q;
  targetBlock : Z
}.

Definition project (e : string * RawTx) : PreTx :=
  let (id, t) := e in
  {| p_size := r_size t;
     p_fee := r_fee t;
     p_descendantsize := r_descendentsize t;
     p_descendantfees := r_descendentfees t;
     p_txid := id;
     p_feeRate := div (of_field (r_descendantfees t)) (of_field (r_descendantsize t)) |}.

(** [(a, b) => b.feeRate - a.feeRate] *)
Definition byFeeDesc (a b : PreTx) : num := sub (p_feeRate b) (p_feeRate a).

Definition withPos (tx : PreTx) (cs : Q) (tb : Z) : MempoolTx :=
  {| size := p_size tx; fee := p_fee tx;
     descendantsize := p_descendantsize tx; descendantfees := p_descendantfees tx;
     txid := p_txid tx; feeRate := p_feeRate tx;
     cumSize := cs; targetBlock := tb |}.

Section Packing.
Variables blockSize minersReservedBlockRatio : Q.

Definition blockEffectiveSize : Q := blockSize * (1 - minersReservedBlockRatio).

(** The last [.map] of [sortByFee], threading [cumSize], [targetBlock], [n]. *)
Fixpoint pack (cum : Q) (tb n : Z) (l : list PreTx) : list MempoolTx :=
  match l with
  | [] => []
  | tx :: l' =>
      let cum' := cum + p_size tx in
      if negb (Qle_bool cum' (inject_Z n * blockEffectiveSize))
      then withPos tx cum' (tb + 1) :: pack cum' (tb + 1) (n + 1) l'
      else withPos tx cum' tb :: pack cum' tb n l'
  end.

Definition sortByFee (txs : RawMempool) : list MempoolTx :=
  pack 0 1 1 (jsort byFeeDesc (map project txs)).

End Packing.

(** ** Snapshot differ and mined-block detection *)

(** [differenceBy(xs, ys, 'txid')] *)
Definition differenceByTxid (xs ys : list MempoolTx) : list MempoolTx :=
  filter (fun t => negb (existsb (fun u => String.eqb (txid t) (txid u)) ys)) xs.

(** [bufferCount(2, 1)] on the (never completing) snapshot stream. *)
Fixpoint last2Mempools (snaps : list (list MempoolTx))
  : list (list MempoolTx * list MempoolTx) :=
  match snaps with
  | a :: ((b :: _) as rest) => (a, b) :: last2Mempools rest
  | _ => []
  end.

Definition removedTxsShared (snaps : list (list MempoolTx)) : list (list MempoolTx) :=
  map (fun p => differenceByTxid (fst p) (snd p)) (last2Mempools snaps).

(** [.filter(txs => txs.length > 500)] *)
Definition minedFilter (removed : list (list MempoolTx)) : list (list MempoolTx) :=
  filter (fun txs => Nat.ltb 500 (length txs)) removed.

Definition minedTxs (snaps : list (list MempoolTx)) : list (list MempoolTx) :=
  minedFilter (removedTxsShared snaps).

(** ** Mined-block summary *)

(** [xs.filter((_, i) => ...)]: a filter that sees the index. *)
Fixpoint filteri_from {A : Type} (p : nat -> A -> bool) (i : nat) (l : list A) : list A :=
  match l with
  | [] => []
  | x :: l' => if p i x then x :: filteri_from p (S i) l' else filteri_from p (S i) l'
  end.

Definition Qnat (n : nat) : Q := inject_Z (Z.of_nat n).

(** [minQuant = (xs, quantile) => xs.filter((_, i) => i > xs.length * (1 - quantile))] *)
Definition minQuant {A : Type} (xs : list A) (quantile : Q) : list A :=
  filteri_from (fun i _ => negb (Qle_bool (Qnat i) (Qnat (length xs) * (1 - quantile)))) 0 xs.

(** lodash [sumBy] / [meanBy] on number-valued iteratees. *)
Definition sumBy {A : Type} (f : A -> num) (l : list A) : num :=
  match l with
  | [] => Fin 0
  | x :: r => fold_left (fun acc y => add acc (f y)) r (f x)
  end.

Definition meanBy {A : Type} (f : A -> num) (l : list A) : num :=
  match l with
  | [] => NaN
  | _ => div (sumBy f l) (Fin (Qnat (length l)))
  end.

(** [[.4, .2, .1, .05, .01, .005, .001]] *)
Definition quantiles : list Q := [2#5; 1#5; 1#10; 1#20; 1#100; 1#200; 1#1000].

(** [.sort((a, b) => b.feeRate - a.feeRate)] of [minedTxsSummary$]. *)
Definition sortMined (removed : list MempoolTx) : list MempoolTx :=
  jsort (fun a b => sub (feeRate b) (feeRate a)) removed.

(** The [fee] field of the summary: quantile key and tail mean. *)
Definition summaryFeeOf (x : list MempoolTx) : list (Q * num) :=
  map (fun quantile => (quantile, meanBy feeRate (minQuant x quantile))) quantiles.

Definition minedSummaryFee (removed : list MempoolTx) : list (Q * num) :=
  summaryFeeOf (sortMined removed).

(** ** Velocity and acceleration *)

(** RxJS [scan] without a seed: the first value seeds the accumulator
    and is emitted as it is; later values emit [f acc v]. *)
Fixpoint scan_from {A : Type} (f : A -> A -> A) (acc : A) (l : list A) : list A :=
  match l with
  | [] => []
  | v :: l' => let a := f acc v in a :: scan_from f a l'
  end.

Definition scan {A : Type} (f : A -> A -> A) (l : list A) : list A :=
  match l with
  | [] => []
  | v :: l' => v :: scan_from f v l'
  end.

(** [velocity(t).scan((v0, v1) => v1 - v0)] on the list of velocity emissions. *)
Definition acceleration (velocities : list num) : list num :=
  scan (fun v0 v1 => sub v1 v0) velocities.

(** The spec's reading: the first sample, then differences of consecutive samples. *)
Fixpoint diffs_from (v0 : num) (l : list num) : list num :=
  match l with
  | [] => []
  | v1 :: l' => sub v1 v0 :: diffs_from v1 l'
  end.

Definition accelerationSpec (velocities : list num) : list num :=
  match velocities with
  | [] => []
  | v :: l => v :: diffs_from v l
  end.

(** ** Recommendation filter: [feeDiff$] and [minDiff$] *)

(** A [getFee] emission (timestamp and date are not used downstream). *)
Record FeeEst : Type := {
  est_feeRate : num;
  est_targetBlock : Z
}.

Record DiffEst : Type := {
  d_diff : num;
  d_est : FeeEst
}.

Definition range : list Z := [1; 2; 3; 4]%Z.

Definition rangeAt (i : nat) : num :=
  of_field (option_map inject_Z (nth_error range i)).

(** The [reduce] of [feeDiff$]; [prev] is [xs[i - 1]] ([None] iff [i = 0]). *)
Fixpoint feeDiffFrom (i : nat) (prev : option FeeEst) (xs : list FeeEst) : list DiffEst :=
  match xs with
  | [] => []
  | fee :: xs' =>
      let d := match prev with
               | None => Fin 0
               | Some p => div (sub (est_feeRate fee) (est_feeRate p))
                               (sub (rangeAt i) (rangeAt (pred i)))
               end in
      {| d_diff := d; d_est := fee |} :: feeDiffFrom (S i) (Some fee) xs'
  end.

(** [feeDiff$] on one [combineLatest] emission. *)
Definition feeDiff (xs : list FeeEst) : list DiffEst :=
  filter (fun x => le (d_diff x) (Fin 0)) (feeDiffFrom 0 None xs).

Record Ranked : Type := {
  k_diff : num;
  k_est : FeeEst;
  k_cumDiff : num;
  k_valid : bool
}.

Section MinDiff.
(** [config.constants.minSavingsRate] and [Math.sqrt] on non-negative rationals. *)
Variable minSavingsRate : Q.
Variable sqrtQ : Q -> Q.

(** The [reduce] of [minDiff$]; [None] is the [TypeError] raised by
    reading [xs[i - 1].feeRate] at [i = 0]. *)
Fixpoint markValid (cum : num) (prev : option DiffEst) (xs : list DiffEst)
  : option (list Ranked) :=
  match xs with
  | [] => Some []
  | fee :: xs' =>
      let valid :=
        if eq_zero (d_diff fee) then Some true
        else match prev with
             | None => None
             | Some p => Some (ge (div (d_diff fee) (est_feeRate (d_est p))) (Fin minSavingsRate))
             end in
      match valid with
      | None => None
      | Some v =>
          let cum' := add cum (d_diff fee) in
          match markValid cum' (Some fee) xs' with
          | None => None
          | Some r => Some ({| k_diff := d_diff fee; k_est := d_est fee;
                               k_cumDiff := cum'; k_valid := v |} :: r)
          end
      end
  end.

(** [Math.sqrt(a.diff * a.cumDiff) / a.targetBlock] *)
Definition cost (e : Ranked) : num :=
  div (sqrt sqrtQ (mul (k_diff e) (k_cumDiff e))) (Fin (inject_Z (est_targetBlock (k_est e)))).

(** [.sort((b, a) => cost(a) - cost(b))] *)
Definition byCost (b a : Ranked) : num := sub (cost a) (cost b).

(** [minDiff$] on one [feeDiff$] emission. *)
Definition minDiff (xs : list DiffEst) : option (list Ranked) :=
  match markValid (Fin 0) None xs with
  | None => None
  | Some l => Some (jsort byCost (filter k_valid l))
  end.

End MinDiff.

(** ** Further JavaScript and library operations *)

(** [a < b] *)
Definition num_lt (a b : num) : bool := le a b && negb (le b a).

Definition isNaN (a : num) : bool := match a with NaN => true | _ => false end.

(** [Math.abs] *)
Definition num_abs (a : num) : num :=
  match a with
  | Fin q => Fin (Qabs q)
  | NInf => PInf
  | _ => a
  end.

(** RxJS [distinctUntilChanged(compare)]: a value is emitted when it
    differs from the last emitted one. *)
Fixpoint duc_from {A : Type} (eqb : A -> A -> bool) (last : A) (l : list A) : list A :=
  match l with
  | [] => []
  | x :: l' => if eqb last x then duc_from eqb last l' else x :: duc_from eqb x l'
  end.

Definition distinctUntilChanged {A : Type} (eqb : A -> A -> bool) (l : list A) : list A :=
  match l with
  | [] => []
  | x :: l' => x :: duc_from eqb x l'
  end.

(** lodash [minBy] ([baseExtremum] with [baseLt]): NaN keys are skipped
    until a first number is found; afterwards an entry replaces the
    current one only when its key is strictly smaller. *)
Fixpoint minBy_from {A : Type} (f : A -> num) (best : option (A * num)) (l : list A)
  : option A :=
  match l with
  | [] => option_map fst best
  | x :: l' =>
      let c := f x in
      match best with
      | None => if isNaN c then minBy_from f None l' else minBy_from f (Some (x, c)) l'
      | Some (_, cb) =>
          if num_lt c cb then minBy_from f (Some (x, c)) l' else minBy_from f best l'
      end
  end.

Definition minBy {A : Type} (f : A -> num) (l : list A) : option A := minBy_from f None l.

(** ** [memPooler$]: polling, deduplication and packing *)

(** A polled mempool object: [snap_id] stands for its identity (each RPC
    reply is a fresh object), [snap_val] for its contents. *)
Record Snap : Type := {
  snap_id : nat;
  snap_val : RawMempool
}.

Section MemPooler.
(** lodash [isEqual] on two raw mempools. *)
Variable isEqual : RawMempool -> RawMempool -> bool.
Variables blockSize minersReservedBlockRatio : Q.

(** [.scan((x, y) => !isEqual(x, y) ? y : x)] *)
Definition keepIfEqual (x y : Snap) : Snap :=
  if negb (isEqual (snap_val x) (snap_val y)) then y else x.

(** [.distinctUntilChanged()] compares the objects with [===]. *)
Definition dedupSnapshots (polls : list Snap) : list Snap :=
  distinctUntilChanged (fun a b => Nat.eqb (snap_id a) (snap_id b)) (scan keepIfEqual polls).

Definition memPooler (polls : list Snap) : list (list MempoolTx) :=
  map (fun s => sortByFee blockSize minersReservedBlockRatio (snap_val s)) (dedupSnapshots polls).

End MemPooler.

(** [addedTxs$] on one pair of consecutive snapshots. *)
Definition addedTxs (p : list MempoolTx * list MempoolTx) : list MempoolTx :=
  differenceByTxid (snd p) (fst p).

(** ** Bytes ahead of a target block *)

(** [{ size, cumSize }] kept by [bufferAdded$] and [bufferRemoved$]. *)
Record Sized : Type := {
  s_size : Q;
  s_cumSize : Q
}.

Section Ahead.
Variable blockEffSize : Q.

(** [.filter(tx => tx.cumSize < targetBlock * blockEffectiveSize)] *)
Definition aheadOf (targetBlock : Z) (txs : list Sized) : list Sized :=
  filter (fun tx => negb (Qle_bool (inject_Z targetBlock * blockEffSize) (s_cumSize tx))) txs.

(** [addedBytesAheadTargetPer10min] on one [bufferAdded$] emission. *)
Definition addedBytesAhead (intTimeAdded : Q) (targetBlock : Z) (txs : list Sized) : num :=
  let x := fold_left (fun acc tx => acc + s_size tx) (aheadOf targetBlock txs) 0 in
  mul (mul (div (Fin x) (Fin intTimeAdded)) (Fin 10)) (Fin 60000).

(** The [reduce] of [bufferRemoved$] over a window of block buffers. *)
Definition reduceWindow (w : list (list Sized * Q)) : list Sized * Q :=
  fold_left (fun acc y => (fst acc ++ fst y, snd y + snd acc)) w ([], 0).

(** [removedBytesAheadTargetPer10min] on one [bufferRemoved$] emission. *)
Definition removedBytesAhead (targetBlock : Z) (x : list Sized * Q) : num :=
  let value := fold_left (fun acc tx => s_size tx + acc) (aheadOf targetBlock (fst x)) 0 in
  mul (div (Fin value) (div (Fin (snd x)) (Fin 60000))) (Fin 10).

End Ahead.

(** ** Final position and fee transaction *)

(** [finalPosition(targetBlock)] on one snapshot ([target] is the
    argument [targetBlock]); [None] is the
    [undefined] that the stream filters out. *)
Definition finalPosition (target : Z) (txs : list MempoolTx) : option Q :=
  match find (fun tx => Z.eqb (targetBlock tx) (target + 1)) txs with
  | Some tx => Some (cumSize tx)
  | None => None
  end.

(** [getFeeTx]: the transaction of the snapshot closest to [pos]. *)
Definition getFeeTx (pos : num) (txs : list MempoolTx) : option MempoolTx :=
  minBy (fun tx => num_abs (sub (Fin (cumSize tx)) pos)) txs.

(** [minFeeTx: minBy(x, 'feeRate')] of [minedTxsSummary$]. *)
Definition minFeeTx (x : list MempoolTx) : option MempoolTx := minBy feeRate x.

(** ** Properties used in the statements *)

(** [R] holds between every two neighbours. *)
Fixpoint chain {A : Type} (R : A -> A -> Prop) (l : list A) : Prop :=
  match l with
  | x :: ((y :: _) as l') => R x y /\ chain R l'
  | _ => True
  end.

(** [l_0 - (l_1 - (l_2 - ...))] *)
Fixpoint alt_sum (l : list Q) : Q :=
  match l with
  | [] => 0
  | v :: l' => v - alt_sum l'
  end.

Fixpoint prefixSums (acc : Q) (l : list Q) : list Q :=
  match l with
  | [] => []
  | s :: l' => (acc + s) :: prefixSums (acc + s) l'
  end.

(** [a === q] for a finite [q]. *)
Definition hasFeeRate (a : num) (q : Q) : bool :=
  match a with Fin x => Qeq_bool x q | _ => false end.

(** The raw entry carries the fields the feeRate is read from, with a
    positive descendant size. *)
Definition wellFormedRate (t : RawTx) : Prop :=
  exists f s, r_descendantfees t = Some f /\ r_descendantsize t = Some s /\ 0 < s.

(** ** Concrete inputs *)

(** A removed transaction of fee rate [k]. *)
Definition minedTx (k : nat) : MempoolTx :=
  {| size := 1; fee := Qnat k; descendantsize := Some 1; descendantfees := Some (Qnat k);
     txid := EmptyString; feeRate := Fin (Qnat k); cumSize := 0; targetBlock := 1 |}.

(** A removed set of [n] transactions with fee rates [1 .. n]. *)
Definition minedBlock (n : nat) : list MempoolTx := map minedTx (seq 1 n).

(** The last [k] entries of a list. *)
Definition lastn {A : Type} (k : nat) (l : list A) : list A := skipn (length l - k) l.

(** The four combined estimates of the spec's example, targets 1 .. 4. *)
Definition exampleEstimates : list FeeEst :=
  [ {| est_feeRate := Fin 100; est_targetBlock := 1 |};
    {| est_feeRate := Fin 95; est_targetBlock := 2 |};
    {| est_feeRate := Fin 94; est_targetBlock := 3 |};
    {| est_feeRate := Fin 94; est_targetBlock := 4 |} ]%Z.

(** A raw entry as the node reports it: [descendantsize] and [descendantfees]. *)
Definition rawTx (sz fees : Q) : RawTx :=
  {| r_size := sz; r_fee := fees; r_descendantsize := Some sz; r_descendantfees := Some fees;
     r_descendentsize := None; r_descendentfees := None |}.

(** A raw entry carrying only the [descendent]-spelled aggregates. *)
Definition rawTxDescendent (sz fees : Q) : RawTx :=
  {| r_size := sz; r_fee := fees; r_descendantsize := None; r_descendantfees := None;
     r_descendentsize := Some sz; r_descendentfees := Some fees |}.

(** ** Generic lemmas *)

Section JsSortFacts.
Context {A : Type} (cmp : A -> A -> num).

Lemma insert_perm : forall x l, Permutation (x :: l) (insert cmp x l).
Proof.
  intros x l; induction l as [|y l IH]; simpl; [reflexivity|].
  destruct (sign (cmp x y)); try reflexivity;
    rewrite perm_swap; constructor; exact IH.
Qed.

Lemma jsort_perm_acc : forall l acc,
  Permutation (acc ++ l) (fold_left (fun acc x => insert cmp x acc) l acc).
Proof.
  induction l as [|x l IH]; intros acc; simpl.
  - rewrite app_nil_r; reflexivity.
  - rewrite <- IH, <- insert_perm.
    apply Permutation_sym, Permutation_middle.
Qed.

Lemma jsort_perm : forall l, Permutation l (jsort cmp l).
Proof. intros l; exact (jsort_perm_acc l []). Qed.

End JsSortFacts.

Lemma filteri_from_none {A : Type} (p : nat -> A -> bool) : forall l i,
  (forall j, (i <= j < i + length l)%nat -> forall x, p j x = false) ->
  filteri_from p i l = [].
Proof.
  induction l as [|x l IH]; intros i H; simpl; [reflexivity|].
  rewrite (H i) by (simpl; lia).
  apply IH; intros j Hj; apply H; simpl; lia.
Qed.

Lemma Qnat_succ_le : forall j n, (j < n)%nat -> Qnat j + 1 <= Qnat n.
Proof.
  intros j n Hj; unfold Qnat.
  replace (inject_Z (Z.of_nat j) + 1) with (inject_Z (Z.of_nat j + 1))
    by (rewrite inject_Z_plus; reflexivity).
  rewrite <- Zle_Qle; lia.
Qed.

Lemma minQuant_empty {A : Type} : forall (xs : list A) quantile,
  Qnat (length xs) * quantile <= 1 -> minQuant xs quantile = [].
Proof.
  intros xs qt Hq; unfold minQuant.
  apply filteri_from_none; intros j Hj x.
  apply negb_false_iff, Qle_bool_iff.
  assert (Qnat j + 1 <= Qnat (length xs)) by (apply Qnat_succ_le; lia).
  lra.
Qed.

(** ** Acceleration *)

(** Claim C1 (code_bug): on the velocity emissions 1, 2, 3 the
    acceleration stream emits 1, 1, 2: the third value is
    [v3 - (v2 - v1)], since the scan differences against its previous
    output, while the first discrete difference is 1, 1, 1. *)
Lemma acceleration_diffs_previous_output :
  acceleration [Fin 1; Fin 2; Fin 3] = [Fin 1; Fin 1; Fin 2] /\
  accelerationSpec [Fin 1; Fin 2; Fin 3] = [Fin 1; Fin 1; Fin 1].
Proof. split; vm_compute; reflexivity. Qed.

(** ** Mined-block detection *)

(** Claim C7: a removed set is forwarded as a mined block event exactly
    when it holds more than 500 transactions (so 500 is not, 501 is). *)
Theorem minedFilter_over_500 : forall (removed : list (list MempoolTx)) txs,
  In txs (minedFilter removed) <-> In txs removed /\ (500 < length txs)%nat.
Proof.
  intros removed txs; unfold minedFilter.
  rewrite filter_In, Nat.ltb_lt; reflexivity.
Qed.

(** ** Mined-block summary *)

(** Claim C8 (code_bug): on a mined event of 501 transactions with fee
    rates 501 down to 1, the 0.4 quantile keeps the last 200 entries
    (mean 100.5), one fewer than the last [ceil(501 * 0.4)] = 201 entries
    (mean 101). *)
Lemma minQuant_keeps_one_fewer :
  let x := sortMined (minedBlock 501) in
  length (minQuant x (2#5)) = 200%nat /\
  Qceiling (Qnat 501 * (2#5)) = 201%Z /\
  minQuant x (2#5) = lastn 200 x /\
  hasFeeRate (meanBy feeRate (minQuant x (2#5))) (201#2) = true /\
  hasFeeRate (meanBy feeRate (lastn 201 x)) 101 = true.
Proof. vm_compute; repeat split; reflexivity. Qed.

(** Claim C10: when [n * q <= 1] no index [i < n] satisfies
    [i > n * (1 - q)], so the tail kept by [minQuant] is empty and the
    summary's field for [q] is the mean of an empty list, NaN. *)
Theorem summary_tail_empty : forall removed quantile,
  In quantile quantiles ->
  Qnat (length removed) * quantile <= 1 ->
  minQuant (sortMined removed) quantile = [] /\
  In (quantile, NaN) (minedSummaryFee removed).
Proof.
  intros removed qt Hin Hle.
  assert (Hm : minQuant (sortMined removed) qt = []).
  { apply minQuant_empty.
    unfold sortMined; rewrite <- (Permutation_length (jsort_perm _ removed)).
    exact Hle. }
  split; [exact Hm|].
  unfold minedSummaryFee, summaryFeeOf.
  apply in_map_iff; exists qt; rewrite Hm; split; [reflexivity | exact Hin].
Qed.

Lemma summary_tail_empty_witness :
  In (1#1000) quantiles /\ Qnat (length (minedBlock 1000)) * (1#1000) <= 1 /\
  minQuant (sortMined (minedBlock 1000)) (1#1000) = [] /\
  In (1#1000, NaN) (minedSummaryFee (minedBlock 1000)).
Proof.
  assert (Hin : In (1#1000) quantiles) by (simpl; tauto).
  assert (Hle : Qnat (length (minedBlock 1000)) * (1#1000) <= 1)
    by (apply Qle_bool_imp_le; vm_compute; reflexivity).
  split; [exact Hin|]; split; [exact Hle|].
  apply (summary_tail_empty (minedBlock 1000) (1#1000) Hin Hle).
Defined.

(** ** Recommendation filter *)

Definition positiveRate (e : FeeEst) : Prop :=
  exists q, est_feeRate e = Fin q /\ 0 < q.

Lemma feeDiffFrom_est : forall xs i prev d,
  In d (feeDiffFrom i prev xs) -> In (d_est d) xs.
Proof.
  induction xs as [|x xs IH]; intros i prev d H; simpl in H; [contradiction|].
  destruct H as [<-|H]; [left; reflexivity | right; exact (IH _ _ _ H)].
Qed.

Lemma feeDiff_entries : forall xs d,
  Forall positiveRate xs -> In d (feeDiff xs) ->
  positiveRate (d_est d) /\ le (d_diff d) (Fin 0) = true.
Proof.
  intros xs d Hxs Hd; unfold feeDiff in Hd; apply filter_In in Hd as [Hd Hle].
  split; [|exact Hle].
  rewrite Forall_forall in Hxs; apply Hxs, (feeDiffFrom_est _ _ _ _ Hd).
Qed.

(** A non-positive, non-zero saving never clears a positive threshold. *)
Lemma negative_saving_rejected : forall msr d q,
  0 < msr -> 0 < q -> le d (Fin 0) = true -> eq_zero d = false ->
  ge (div d (Fin q)) (Fin msr) = false.
Proof.
  intros msr d q Hm Hq Hle Hz.
  destruct d as [x| | |]; simpl in *; try discriminate.
  - assert (Hq0 : Qeq_bool q 0 = false).
    { apply not_true_iff_false; intro E; apply Qeq_bool_iff in E; lra. }
    rewrite Hq0; unfold ge; simpl.
    apply Qle_bool_iff in Hle.
    apply not_true_iff_false; intro E; apply Qle_bool_iff in E.
    assert (x / q <= 0) by (apply Qle_shift_div_r; [exact Hq | lra]).
    lra.
  - destruct (Qcompare_spec q 0) as [E|E|E]; try lra; reflexivity.
Qed.

Lemma markValid_zero : forall msr cum prev xs l,
  0 < msr ->
  (forall p, prev = Some p -> positiveRate (d_est p)) ->
  (forall d, In d xs -> positiveRate (d_est d) /\ le (d_diff d) (Fin 0) = true) ->
  markValid msr cum prev xs = Some l ->
  forall k, In k l -> k_valid k = true -> eq_zero (k_diff k) = true.
Proof.
  intros msr cum prev xs; revert cum prev.
  induction xs as [|x xs IH]; intros cum prev l Hm Hprev Hxs Hmark k Hk Hv;
    cbn [markValid] in Hmark.
  - injection Hmark as <-; contradiction.
  - destruct (eq_zero (d_diff x)) eqn:Ez.
    + destruct (markValid msr (add cum (d_diff x)) (Some x) xs) as [r|] eqn:Er;
        [|discriminate].
      injection Hmark as <-; destruct Hk as [<-|Hk]; [exact Ez|].
      refine (IH _ (Some x) r Hm _ _ Er k Hk Hv).
      * intros p E; injection E as <-; apply Hxs; left; reflexivity.
      * intros d Hd; apply Hxs; right; exact Hd.
    + destruct prev as [p|]; [|discriminate].
      destruct (Hprev p eq_refl) as [q [Hq Hq0]]; rewrite Hq in Hmark.
      destruct (Hxs x (or_introl eq_refl)) as [_ Hle].
      rewrite (negative_saving_rejected msr _ q Hm Hq0 Hle Ez) in Hmark.
      destruct (markValid msr (add cum (d_diff x)) (Some x) xs) as [r|] eqn:Er;
        [|discriminate].
      injection Hmark as <-; destruct Hk as [<-|Hk]; [discriminate Hv|].
      refine (IH _ (Some x) r Hm _ _ Er k Hk Hv).
      * intros p' E; injection E as <-; apply Hxs; left; reflexivity.
      * intros d Hd; apply Hxs; right; exact Hd.
Qed.

(** Claim C3: with positive fee rates and a positive [minSavingsRate],
    every entry of the ranked list published by [minDiff$] has
    [diff === 0]: no strictly negative marginal saving is published. *)
Theorem minDiff_only_zero_diff : forall minSavingsRate sqrtQ xs out,
  0 < minSavingsRate ->
  Forall positiveRate xs ->
  minDiff minSavingsRate sqrtQ (feeDiff xs) = Some out ->
  Forall (fun k => eq_zero (k_diff k) = true) out.
Proof.
  intros msr sq xs out Hm Hxs H; unfold minDiff in H.
  destruct (markValid msr (Fin 0) None (feeDiff xs)) as [l|] eqn:Hl; [|discriminate].
  injection H as <-.
  apply Forall_forall; intros k Hk.
  apply (Permutation_in _ (Permutation_sym (jsort_perm _ _))) in Hk.
  apply filter_In in Hk as [Hk Hv].
  refine (markValid_zero msr (Fin 0) None (feeDiff xs) l Hm _ _ Hl k Hk Hv).
  - intros p E; discriminate E.
  - intros d Hd; exact (feeDiff_entries xs d Hxs Hd).
Qed.

Lemma minDiff_only_zero_diff_witness :
  exists out, minDiff (1#50) (fun q => q) (feeDiff exampleEstimates) = Some out /\
  Forall (fun k => eq_zero (k_diff k) = true) out.
Proof.
  eexists; split; [vm_compute; reflexivity|].
  apply (minDiff_only_zero_diff (1#50) (fun q => q) exampleEstimates).
  - reflexivity.
  - repeat constructor; eexists; (split; [reflexivity | reflexivity]).
  - vm_compute; reflexivity.
Defined.

Lemma in_map_jsort {A B : Type} (cmp : A -> A -> num) (f : A -> B) : forall l y,
  In y (map f (jsort cmp l)) <-> In y (map f l).
Proof.
  intros l y; split; apply Permutation_in, Permutation_map;
    [apply Permutation_sym|]; apply jsort_perm.
Qed.

Definition rankedFlag (k : Ranked) : Z * bool := (est_targetBlock (k_est k), k_valid k).

Definition rankedTarget (k : Ranked) : Z := est_targetBlock (k_est k).

(** Claim C2 (counterexample): on the spec's example the entry at target 2
    ([diff = -5], [-5 / 100 < 0.02]) is marked invalid and the entry at
    target 1 ([diff = 0]) valid. *)
Lemma example_target2_invalid :
  option_map (map rankedFlag) (markValid (1#50) (Fin 0) None (feeDiff exampleEstimates))
  = Some [(1, true); (2, false); (3, false); (4, true)]%Z.
Proof. vm_compute; reflexivity. Qed.

(** Claim C2 (amended): with fee rates [100, 95, 94, 94] at targets 1 .. 4
    and [minSavingsRate = 0.02], [feeDiff$] computes [diff = [0, -5, -1, 0]]
    and keeps all four; [minDiff$] marks target 3 invalid and targets 1
    and 4 valid, and its ranked list contains targets 1 and 4 and not 3. *)
Theorem example_recommendation : forall sqrtQ,
  map d_diff (feeDiff exampleEstimates) = [Fin 0; Fin (-5); Fin (-1); Fin 0] /\
  map (fun d => est_targetBlock (d_est d)) (feeDiff exampleEstimates) = [1; 2; 3; 4]%Z /\
  exists l out,
    markValid (1#50) (Fin 0) None (feeDiff exampleEstimates) = Some l /\
    In (1%Z, true) (map rankedFlag l) /\ In (3%Z, false) (map rankedFlag l) /\
    In (4%Z, true) (map rankedFlag l) /\
    minDiff (1#50) sqrtQ (feeDiff exampleEstimates) = Some out /\
    In 1%Z (map rankedTarget out) /\ In 4%Z (map rankedTarget out) /\
    ~ In 3%Z (map rankedTarget out).
Proof.
  intros sq; split; [vm_compute; reflexivity|]; split; [vm_compute; reflexivity|].
  destruct (markValid (1#50) (Fin 0) None (feeDiff exampleEstimates)) as [l|] eqn:E;
    [|vm_compute in E; discriminate].
  exists l, (jsort (byCost sq) (filter k_valid l)).
  assert (Hout : minDiff (1#50) sq (feeDiff exampleEstimates)
                 = Some (jsort (byCost sq) (filter k_valid l)))
    by (unfold minDiff; rewrite E; reflexivity).
  rewrite !in_map_jsort.
  vm_compute in E; injection E as <-.
  split; [reflexivity|].
  split; [simpl; tauto|]; split; [simpl; tauto|]; split; [simpl; tauto|].
  split; [exact Hout|].
  simpl; intuition discriminate.
Qed.

(** ** Packing *)

Lemma Forall_perm {A : Type} (P : A -> Prop) : forall l l',
  Permutation l l' -> Forall P l -> Forall P l'.
Proof.
  intros l l' Hp H; rewrite Forall_forall in *; intros x Hx.
  apply H, (Permutation_in _ (Permutation_sym Hp) Hx).
Qed.

Section PackFacts.
Variables blockSize ratio : Q.

Ltac pack_step IH :=
  intros cum tb n; simpl;
  match goal with
  | |- context [if ?c then _ else _] => destruct c
  end; simpl; try rewrite IH; try reflexivity.

Lemma pack_feeRate : forall l cum tb n,
  map feeRate (pack blockSize ratio cum tb n l) = map p_feeRate l.
Proof. induction l as [|tx l IH]; [reflexivity|]; pack_step IH. Qed.

Lemma pack_size : forall l cum tb n,
  map size (pack blockSize ratio cum tb n l) = map p_size l.
Proof. induction l as [|tx l IH]; [reflexivity|]; pack_step IH. Qed.

Lemma pack_cumSize : forall l cum tb n,
  map cumSize (pack blockSize ratio cum tb n l) = prefixSums cum (map p_size l).
Proof. induction l as [|tx l IH]; [reflexivity|]; pack_step IH. Qed.

Lemma pack_txids_at_rate : forall q l cum tb n,
  map txid (filter (fun t => hasFeeRate (feeRate t) q) (pack blockSize ratio cum tb n l))
  = map p_txid (filter (fun p => hasFeeRate (p_feeRate p) q) l).
Proof.
  intros q; induction l as [|tx l IH]; [reflexivity|]; intros cum tb n; simpl.
  destruct (negb _); simpl; destruct (hasFeeRate (p_feeRate tx) q); simpl;
    rewrite IH; reflexivity.
Qed.

(** The running [targetBlock] moves by 0 or 1 at each transaction,
    starting from its initial value. *)
Lemma pack_targetBlock_steps : forall l cum tb n,
  chain (fun a b => b = a \/ b = (a + 1)%Z)
        (tb :: map targetBlock (pack blockSize ratio cum tb n l)).
Proof.
  induction l as [|tx l IH]; intros cum tb n; cbn [pack map]; [exact I|].
  destruct (negb _); (split; [cbn; auto | apply IH]).
Qed.

End PackFacts.

Lemma prefixSums_mono : forall l acc,
  Forall (fun s => 0 <= s) l -> chain Qle (prefixSums acc l).
Proof.
  induction l as [|s l IH]; intros acc H; simpl; [exact I|].
  inversion H as [|? ? Hs Hl]; subst.
  destruct l as [|s' l]; simpl; [exact I|].
  inversion Hl as [|? ? Hs' _]; subst.
  split; [lra|]. exact (IH (acc + s) Hl).
Qed.

Lemma chain_tail {A : Type} (R : A -> A -> Prop) : forall x l, chain R (x :: l) -> chain R l.
Proof. intros x [|y l] H; [exact I | exact (proj2 H)]. Qed.

Lemma chain_impl {A : Type} (R R' : A -> A -> Prop) : forall l,
  (forall a b, R a b -> R' a b) -> chain R l -> chain R' l.
Proof.
  induction l as [|x l IH]; intros HR H; [exact I|].
  destruct l as [|y l]; [exact I|]; destruct H as [H1 H2].
  split; [apply HR, H1 | apply IH; assumption].
Qed.

(** ** Sorting by fee rate *)

Definition fr (p : PreTx) : Q := match p_feeRate p with Fin q => q | _ => 0 end.

Definition finRate (p : PreTx) : Prop := exists q, p_feeRate p = Fin q.

Definition desc (a b : PreTx) : Prop := fr b <= fr a.

Lemma byFeeDesc_Lt : forall x y, finRate x -> finRate y ->
  (sign (byFeeDesc x y) = Lt <-> fr y < fr x).
Proof.
  intros x y [qx Hx] [qy Hy]; unfold byFeeDesc, fr; rewrite Hx, Hy; simpl.
  rewrite <- Qlt_alt; split; intros; lra.
Qed.

Lemma byFeeDesc_not_Lt : forall x y, finRate x -> finRate y ->
  sign (byFeeDesc x y) <> Lt -> fr x <= fr y.
Proof.
  intros x y Hx Hy Hn; apply Qnot_lt_le; intro Hlt.
  apply Hn, (byFeeDesc_Lt x y Hx Hy), Hlt.
Qed.

Lemma insert_finRate : forall x l, finRate x -> Forall finRate l ->
  Forall finRate (insert byFeeDesc x l).
Proof.
  intros x l Hx Hl; apply (Forall_perm _ (x :: l)); [apply insert_perm|].
  constructor; assumption.
Qed.

Lemma insert_sorted : forall l x, finRate x -> Forall finRate l ->
  StronglySorted desc l -> StronglySorted desc (insert byFeeDesc x l).
Proof.
  induction l as [|y l IH]; intros x Hx Hl Hs; simpl.
  - repeat constructor.
  - inversion Hl as [|? ? Hy Hl']; subst.
    inversion Hs as [|? ? Hs' Hall]; subst.
    destruct (sign (byFeeDesc x y)) eqn:E.
    2: { assert (Hlt : fr y < fr x) by (apply byFeeDesc_Lt; assumption).
         constructor; [exact Hs|]. constructor; [unfold desc; lra|].
         rewrite Forall_forall in *; intros z Hz; specialize (Hall z Hz).
         unfold desc in *; lra. }
    all: assert (Hle : fr x <= fr y)
           by (apply byFeeDesc_not_Lt; [assumption | assumption | rewrite E; discriminate]);
         constructor; [apply IH; assumption|];
         apply (Forall_perm _ (x :: l)); [apply insert_perm|];
         constructor; [exact Hle | exact Hall].
Qed.

Lemma jsort_sorted_acc : forall l acc,
  Forall finRate l -> Forall finRate acc -> StronglySorted desc acc ->
  StronglySorted desc (fold_left (fun acc x => insert byFeeDesc x acc) l acc) /\
  Forall finRate (fold_left (fun acc x => insert byFeeDesc x acc) l acc).
Proof.
  induction l as [|x l IH]; intros acc Hl Hacc Hs; simpl; [split; assumption|].
  inversion Hl as [|? ? Hx Hl']; subst.
  apply IH; [exact Hl' | apply insert_finRate | apply insert_sorted]; assumption.
Qed.

Lemma jsort_sorted : forall l, Forall finRate l ->
  StronglySorted desc (jsort byFeeDesc l) /\ Forall finRate (jsort byFeeDesc l).
Proof. intros l Hl; apply jsort_sorted_acc; [exact Hl | constructor | constructor]. Qed.

Lemma sorted_feeRate_nonincreasing : forall l, Forall finRate l ->
  StronglySorted desc l -> chain (fun a b => ge a b = true) (map p_feeRate l).
Proof.
  induction l as [|x l IH]; intros Hl Hs; [exact I|].
  destruct l as [|y l]; [exact I|].
  inversion Hl as [|? ? [qx Hx] Hl']; subst.
  inversion Hl' as [|? ? [qy Hy] _]; subst.
  inversion Hs as [|? ? Hs' Hall]; subst.
  split; [|apply IH; assumption].
  inversion Hall as [|? ? Hxy _]; subst.
  unfold desc, fr in Hxy; rewrite Hx, Hy in Hxy; simpl.
  rewrite Hx, Hy; unfold ge; simpl; apply Qle_bool_iff; exact Hxy.
Qed.

Definition atRate (q : Q) (p : PreTx) : bool := hasFeeRate (p_feeRate p) q.

Lemma atRate_fr : forall q p, finRate p -> atRate q p = Qeq_bool (fr p) q.
Proof. intros q p [x Hx]; unfold atRate, fr; rewrite Hx; reflexivity. Qed.

Lemma filter_all_false {A : Type} (f : A -> bool) : forall l,
  (forall z, In z l -> f z = false) -> filter f l = [].
Proof.
  induction l as [|z l IH]; intros H; simpl; [reflexivity|].
  rewrite (H z (or_introl eq_refl)); apply IH; intros w Hw; apply H; right; exact Hw.
Qed.

(** Inserting into a sorted list puts [x] after every entry of its rate. *)
Lemma insert_stable : forall q l x, finRate x -> Forall finRate l ->
  StronglySorted desc l ->
  filter (atRate q) (insert byFeeDesc x l)
  = filter (atRate q) l ++ (if atRate q x then [x] else []).
Proof.
  intros q; induction l as [|y l IH]; intros x Hx Hl Hs.
  - cbn [insert filter]; destruct (atRate q x); reflexivity.
  - inversion Hl as [|? ? Hy Hl']; subst.
    inversion Hs as [|? ? Hs' Hall]; subst.
    cbn [insert].
    destruct (sign (byFeeDesc x y)) eqn:E.
    2: { assert (Hlt : fr y < fr x) by (apply byFeeDesc_Lt; assumption).
         change (filter (atRate q) (x :: y :: l)) with
           (if atRate q x then x :: filter (atRate q) (y :: l) else filter (atRate q) (y :: l)).
         destruct (atRate q x) eqn:Ax.
         - rewrite (filter_all_false (atRate q) (y :: l)); [reflexivity|].
           rewrite atRate_fr in Ax by exact Hx; apply Qeq_bool_iff in Ax.
           intros z Hz; apply not_true_iff_false; intro Az.
           assert (Hzf : finRate z)
             by (destruct Hz as [<-|Hz]; [exact Hy | rewrite Forall_forall in Hl'; auto]).
           rewrite atRate_fr in Az by exact Hzf; apply Qeq_bool_iff in Az.
           destruct Hz as [<-|Hz]; [lra|].
           rewrite Forall_forall in Hall; specialize (Hall z Hz); unfold desc in Hall; lra.
         - rewrite app_nil_r; reflexivity. }
    all: cbn [filter]; rewrite IH by assumption;
         destruct (atRate q y); reflexivity.
Qed.

Lemma jsort_stable_acc : forall q l acc,
  Forall finRate l -> Forall finRate acc -> StronglySorted desc acc ->
  filter (atRate q) (fold_left (fun acc x => insert byFeeDesc x acc) l acc)
  = filter (atRate q) acc ++ filter (atRate q) l.
Proof.
  intros q; induction l as [|x l IH]; intros acc Hl Hacc Hs; simpl.
  - rewrite app_nil_r; reflexivity.
  - inversion Hl as [|? ? Hx Hl']; subst.
    rewrite IH by (try apply insert_finRate; try apply insert_sorted; assumption).
    rewrite insert_stable by assumption.
    rewrite <- app_assoc; destruct (atRate q x); reflexivity.
Qed.

Lemma project_finRate : forall e, wellFormedRate (snd e) -> finRate (project e).
Proof.
  intros [id t] [f [s [Hf [Hs Hpos]]]]; exists (f / s); simpl in Hf, Hs.
  unfold project; simpl; rewrite Hf, Hs; simpl.
  assert (Qeq_bool s 0 = false) as ->
    by (apply not_true_iff_false; intro E; apply Qeq_bool_iff in E; lra).
  reflexivity.
Qed.

Lemma project_all_finRate : forall txs,
  Forall (fun e => wellFormedRate (snd e)) txs -> Forall finRate (map project txs).
Proof.
  intros txs H; apply Forall_map; apply (Forall_impl _ project_finRate H).
Qed.

(** Claim C4 (code_bug): for an entry carrying only [descendentsize] and
    [descendentfees], [sortByFee] computes [feeRate] from the
    [descendant]-spelled keys, which are missing, so the fee rate is NaN
    instead of 1000 / 100. *)
Lemma sortByFee_descendent_entry_NaN : forall blockSize ratio,
  map feeRate (sortByFee blockSize ratio [("t1"%string, rawTxDescendent 100 1000)]) = [NaN].
Proof. intros bs r; unfold sortByFee; rewrite pack_feeRate; reflexivity. Qed.

(** Claim C5 (code bug): for a mapping of non-negative sizes whose
    entries carry only the [descendent]-spelled aggregates (which the spec
    accepts), [sortByFee] reads the [descendant]-spelled ones, gets NaN
    rates, and the packed [feeRate] sequence is not non-increasing, since
    [NaN >= NaN] is false. *)
Lemma sortByFee_NaN_rates_unordered :
  ~ chain (fun a b => ge a b = true)
      (map feeRate (sortByFee 1000000 0 [("a"%string, rawTxDescendent 100 1000);
                                          ("b"%string, rawTxDescendent 100 500)])).
Proof. vm_compute; intros [H _]; discriminate H. Qed.

(** When every entry has a non-negative size and a
    finite fee rate (its [descendantfees] and a positive [descendantsize]
    are present), the packed sequence has [cumSize] equal to the prefix
    sums of [size] and non-decreasing, [targetBlock] non-decreasing with
    steps of 0 or 1, and [feeRate] non-increasing. *)
Theorem sortByFee_packing : forall blockSize ratio txs,
  Forall (fun e => 0 <= r_size (snd e) /\ wellFormedRate (snd e)) txs ->
  let out := sortByFee blockSize ratio txs in
  map cumSize out = prefixSums 0 (map size out) /\
  chain Qle (map cumSize out) /\
  chain Z.le (map targetBlock out) /\
  chain (fun a b => b = a \/ b = (a + 1)%Z) (map targetBlock out) /\
  chain (fun a b => ge a b = true) (map feeRate out).
Proof.
  intros bs r txs H out.
  assert (Hfin : Forall finRate (map project txs))
    by (apply project_all_finRate; apply (Forall_impl _ (fun e He => proj2 He) H)).
  assert (Hsz : Forall (fun p => 0 <= p_size p) (map project txs)).
  { apply Forall_map; apply (Forall_impl _ (fun e He => proj1 He)) in H.
    revert H; apply Forall_impl; intros [id t] Ht; exact Ht. }
  destruct (jsort_sorted _ Hfin) as [Hs Hf].
  assert (Hsz' : Forall (fun p => 0 <= p_size p) (jsort byFeeDesc (map project txs)))
    by (apply (Forall_perm _ _ _ (jsort_perm _ _) Hsz)).
  assert (Htb := chain_tail _ _ _ (pack_targetBlock_steps bs r
                   (jsort byFeeDesc (map project txs)) 0 1 1)).
  unfold out, sortByFee.
  split; [rewrite pack_cumSize, pack_size; reflexivity|].
  split; [rewrite pack_cumSize; apply prefixSums_mono, Forall_map, Hsz'|].
  split; [revert Htb; apply chain_impl; intros a b [-> | ->]; lia|].
  split; [exact Htb|].
  rewrite pack_feeRate; apply sorted_feeRate_nonincreasing; assumption.
Qed.

Lemma sortByFee_packing_witness :
  let txs := [("a"%string, rawTx 600000 6000000); ("b"%string, rawTx 500000 2500000);
              ("c"%string, rawTx 100000 100000)] in
  map targetBlock (sortByFee 1000000 0 txs) = [1; 2; 2]%Z /\
  map cumSize (sortByFee 1000000 0 txs) = [600000 # 1; 1100000 # 1; 1200000 # 1] /\
  chain (fun a b => ge a b = true) (map feeRate (sortByFee 1000000 0 txs)).
Proof.
  intros txs; split; [vm_compute; reflexivity|]; split; [vm_compute; reflexivity|].
  refine (proj2 (proj2 (proj2 (proj2 (sortByFee_packing 1000000 0 txs _))))).
  repeat constructor;
    (vm_compute; try discriminate);
    (do 2 eexists; split; [reflexivity | split; [reflexivity | reflexivity]]).
Defined.

(** Claim C6 (counterexample): with [blockEffectiveSize = 1 000 000], a
    mempool holding one transaction of size 2 000 000 gets
    [targetBlock = 2], not 1. *)
Lemma sortByFee_single_oversized_example :
  blockEffectiveSize 1000000 0 < r_size (rawTx 2000000 4000000) /\
  map targetBlock (sortByFee 1000000 0 [("t"%string, rawTx 2000000 4000000)]) = [2%Z] /\
  map targetBlock (sortByFee 1000000 0 [("t"%string, rawTx 2000000 4000000)]) <> [1%Z].
Proof.
  split; [reflexivity|]; split; [vm_compute; reflexivity|].
  vm_compute; discriminate.
Qed.

(** Claim C6 (amended): a single transaction larger than
    [blockEffectiveSize] crosses [1 * blockEffectiveSize], so the packing
    counter increments once and the transaction gets [targetBlock = 2]. *)
Theorem sortByFee_single_oversized : forall blockSize ratio id t,
  blockEffectiveSize blockSize ratio < r_size t ->
  map targetBlock (sortByFee blockSize ratio [(id, t)]) = [2%Z].
Proof.
  intros bs r id t H; unfold sortByFee, jsort; cbn [fold_left insert map pack].
  assert (E : Qle_bool (0 + p_size (project (id, t))) (inject_Z 1 * blockEffectiveSize bs r)
              = false).
  { apply not_true_iff_false; intro E; apply Qle_bool_iff in E.
    simpl in E; change (inject_Z 1) with 1 in E; lra. }
  rewrite E; reflexivity.
Qed.

Lemma sortByFee_single_oversized_witness :
  blockEffectiveSize 1000000 0 < r_size (rawTx 2000000 4000000) /\
  map targetBlock (sortByFee 1000000 0 [("t"%string, rawTx 2000000 4000000)]) = [2%Z].
Proof.
  assert (H : blockEffectiveSize 1000000 0 < r_size (rawTx 2000000 4000000)) by reflexivity.
  split; [exact H|].
  apply (sortByFee_single_oversized 1000000 0 "t"%string _ H).
Defined.

(** Claim C9 (counterexample): two entries with the same fee rate come
    out in the mapping's enumeration order, not in [txid] order, so the
    same set of entries enumerated in two orders gives two snapshots. *)
Lemma sortByFee_tie_order_example :
  map txid (sortByFee 1000000 0 [("bb"%string, rawTx 100 200); ("aa"%string, rawTx 100 200)])
  = ["bb"; "aa"]%string /\
  map txid (sortByFee 1000000 0 [("aa"%string, rawTx 100 200); ("bb"%string, rawTx 100 200)])
  = ["aa"; "bb"]%string.
Proof. split; vm_compute; reflexivity. Qed.

Lemma map_txid_filter_project : forall q txs,
  map p_txid (filter (atRate q) (map project txs))
  = map fst (filter (fun e => hasFeeRate (p_feeRate (project e)) q) txs).
Proof.
  intros q; induction txs as [|[id t] txs IH]; [reflexivity|].
  cbn [map filter]; unfold atRate at 1.
  destruct (hasFeeRate (p_feeRate (project (id, t))) q); cbn [map]; rewrite IH; reflexivity.
Qed.

(** Claim C9 (amended): [sortByFee] compares only [feeRate] and the sort
    is stable: when every fee rate is finite, the transactions of any one
    fee rate appear in the enumeration order of the input mapping. *)
Theorem sortByFee_ties_in_key_order : forall blockSize ratio txs q,
  Forall (fun e => wellFormedRate (snd e)) txs ->
  map txid (filter (fun t => hasFeeRate (feeRate t) q) (sortByFee blockSize ratio txs))
  = map fst (filter (fun e => hasFeeRate (p_feeRate (project e)) q) txs).
Proof.
  intros bs r txs q H; unfold sortByFee.
  rewrite pack_txids_at_rate; fold (atRate q).
  unfold jsort; rewrite jsort_stable_acc; try constructor.
  - apply map_txid_filter_project.
  - apply project_all_finRate, H.
Qed.

Lemma sortByFee_ties_in_key_order_witness :
  map txid (filter (fun t => hasFeeRate (feeRate t) 2)
    (sortByFee 1000000 0 [("bb"%string, rawTx 100 200); ("aa"%string, rawTx 100 200)]))
  = ["bb"; "aa"]%string.
Proof.
  rewrite (sortByFee_ties_in_key_order 1000000 0
             [("bb"%string, rawTx 100 200); ("aa"%string, rawTx 100 200)] 2).
  - vm_compute; reflexivity.
  - repeat constructor; do 2 eexists; (split; [reflexivity | split; [reflexivity | reflexivity]]).
Defined.

(** * Further properties of the pipeline *)

(** ** Snapshot differences *)

(** [removedTxsShared$] and [addedTxs$]: [differenceBy(xs, ys, 'txid')]
    keeps exactly the entries of [xs] whose txid does not occur in [ys]. *)
Theorem differenceByTxid_spec : forall xs ys t,
  In t (differenceByTxid xs ys) <->
  In t xs /\ ~ (exists u, In u ys /\ txid u = txid t).
Proof.
  intros xs ys t; unfold differenceByTxid; rewrite filter_In, negb_true_iff.
  split.
  - intros [Hin Hn]; split; [exact Hin|]; intros [u [Hu Hid]].
    assert (Hex : existsb (fun u => String.eqb (txid t) (txid u)) ys = true)
      by (apply existsb_exists; exists u; split; [exact Hu | apply String.eqb_eq; auto]).
    congruence.
  - intros [Hin Hn]; split; [exact Hin|].
    destruct (existsb _ ys) eqn:E; [|reflexivity].
    apply existsb_exists in E as [u [Hu Hq]]; apply String.eqb_eq in Hq.
    exfalso; apply Hn; exists u; auto.
Qed.

(** For one pair of consecutive snapshots, no transaction reported as
    added shares its txid with a transaction reported as removed. *)
Theorem added_removed_disjoint : forall p t u,
  In t (addedTxs p) -> In u (differenceByTxid (fst p) (snd p)) -> txid t <> txid u.
Proof.
  intros [prev next] t u Ht Hu Hid; unfold addedTxs in Ht; simpl in Ht, Hu.
  apply differenceByTxid_spec in Ht as [Ht _].
  apply differenceByTxid_spec in Hu as [_ Hn].
  apply Hn; exists t; auto.
Qed.

(** ** [minQuant] keeps a suffix *)

Lemma filteri_from_ext {A : Type} (p p' : nat -> A -> bool) : forall l i,
  (forall j x, p j x = p' j x) -> filteri_from p i l = filteri_from p' i l.
Proof.
  induction l as [|x l IH]; intros i H; cbn [filteri_from]; [reflexivity|].
  rewrite H, (IH (S i) H); reflexivity.
Qed.

Lemma filteri_from_threshold {A : Type} (k : nat) : forall (l : list A) i,
  filteri_from (fun j _ => Nat.leb k j) i l = skipn (k - i) l.
Proof.
  induction l as [|x l IH]; intros i; cbn [filteri_from].
  - destruct (k - i)%nat; reflexivity.
  - rewrite IH; destruct (Nat.leb k i) eqn:E.
    + apply Nat.leb_le in E.
      replace (k - i)%nat with 0%nat by lia; replace (k - S i)%nat with 0%nat by lia.
      reflexivity.
    + apply Nat.leb_gt in E.
      replace (k - i)%nat with (S (k - S i)) by lia; reflexivity.
Qed.

(** [minQuant(xs, q)] is the suffix of [xs] that starts right after index
    [floor(xs.length * (1 - q))]. *)
Theorem minQuant_suffix {A : Type} : forall (xs : list A) q,
  minQuant xs q = skipn (Z.to_nat (Qfloor (Qnat (length xs) * (1 - q)) + 1)) xs.
Proof.
  intros xs q; unfold minQuant.
  set (x := Qnat (length xs) * (1 - q)).
  transitivity (skipn (Z.to_nat (Qfloor x + 1) - 0) xs); [|rewrite Nat.sub_0_r; reflexivity].
  rewrite <- filteri_from_threshold.
  apply filteri_from_ext; intros j _.
  destruct (Qle_bool (Qnat j) x) eqn:E; cbn [negb]; symmetry.
  - apply Nat.leb_gt. apply Qle_bool_iff in E.
    apply Qfloor_resp_le in E; unfold Qnat in E; rewrite Qfloor_Z in E; lia.
  - apply Nat.leb_le.
    assert (Hlt : x < Qnat j) by (apply Qnot_le_lt; intro H; apply Qle_bool_iff in H; congruence).
    assert (Hf : inject_Z (Qfloor x) < inject_Z (Z.of_nat j))
      by (pose proof (Qfloor_le x); unfold Qnat in Hlt; lra).
    rewrite <- Zlt_Qlt in Hf; lia.
Qed.

(** ** [acceleration] as an alternating sum *)

Lemma scan_nth_succ {A : Type} (f : A -> A -> A) (d : A) : forall l acc k,
  (k < length l)%nat ->
  nth (S k) (acc :: scan_from f acc l) d = f (nth k (acc :: scan_from f acc l) d) (nth k l d).
Proof.
  induction l as [|y l IH]; intros acc k Hk; cbn [length] in Hk; [lia|].
  destruct k as [|k]; [reflexivity|].
  cbn [scan_from]; exact (IH (f acc y) k ltac:(lia)).
Qed.

Lemma firstn_snoc {A : Type} (d : A) : forall l n, (n < length l)%nat ->
  firstn (S n) l = firstn n l ++ [nth n l d].
Proof.
  induction l as [|x l IH]; intros n Hn; cbn [length] in Hn; [lia|].
  destruct n as [|n]; [reflexivity|].
  change (firstn (S (S n)) (x :: l)) with (x :: firstn (S n) l).
  rewrite IH by lia; reflexivity.
Qed.

Lemma nth_map_Fin : forall l k, (k < length l)%nat -> nth k (map Fin l) NaN = Fin (nth k l 0).
Proof.
  intros l k Hk; rewrite (nth_indep _ NaN (Fin 0)) by (rewrite length_map; exact Hk).
  apply map_nth.
Qed.

(** The [k]-th value of [acceleration] is the alternating sum
    [v_k - v_(k-1) + v_(k-2) - ... +/- v_0] of all the velocities emitted
    so far, not a difference of the last two. *)
Theorem acceleration_alternating_sum : forall vs k, (k < length vs)%nat ->
  exists b, nth k (acceleration (map Fin vs)) NaN = Fin b /\ b == alt_sum (rev (firstn (S k) vs)).
Proof.
  intros vs k; induction k as [|k IH]; intros Hk.
  - destruct vs as [|v0 l]; cbn [length] in Hk; [lia|].
    exists v0; split; [reflexivity | cbn; lra].
  - destruct (IH ltac:(lia)) as [b [Hb Hq]].
    destruct vs as [|v0 l]; cbn [length] in Hk; [lia|].
    unfold acceleration in *; cbn [map scan] in *.
    rewrite scan_nth_succ by (rewrite length_map; lia).
    rewrite Hb, nth_map_Fin by lia.
    exists (nth k l 0 + - b); split; [reflexivity|].
    rewrite (firstn_snoc 0 (v0 :: l) (S k)) by (cbn [length]; lia).
    rewrite rev_unit; cbn [alt_sum nth]; lra.
Qed.

Lemma acceleration_alternating_sum_witness :
  lt 3 (length [1; 2; 4; 7]) /\
  (exists b, nth 3 (acceleration (map Fin [1; 2; 4; 7])) NaN = Fin b /\
             b == alt_sum (rev (firstn 4 [1; 2; 4; 7]))) /\
  alt_sum (rev (firstn 4 [1; 2; 4; 7])) == 4.
Proof.
  assert (H : lt 3 (length [1; 2; 4; 7])) by (cbn; lia).
  split; [exact H | split; [exact (acceleration_alternating_sum [1; 2; 4; 7] 3 H) | reflexivity]].
Defined.

(** ** [minDiff$] on [feeDiff$] output *)

Lemma markValid_from_some : forall msr xs cum p,
  exists l, markValid msr cum (Some p) xs = Some l.
Proof.
  intros msr; induction xs as [|x xs IH]; intros cum p; [eexists; reflexivity|].
  cbn [markValid].
  destruct (IH (add cum (d_diff x)) x) as [l Hl].
  destruct (eq_zero (d_diff x)); rewrite Hl; eexists; reflexivity.
Qed.

(** On what [feeDiff$] publishes, the [reduce] of [minDiff$] never reads
    the missing [xs[-1]]: the first kept entry has [diff === 0]. *)
Theorem minDiff_feeDiff_total : forall msr sq xs,
  exists out, minDiff msr sq (feeDiff xs) = Some out.
Proof.
  intros msr sq [|x xs]; [eexists; reflexivity|].
  unfold minDiff, feeDiff; cbn [feeDiffFrom filter d_diff].
  change (le (Fin 0) (Fin 0)) with true; cbn [markValid d_diff].
  change (eq_zero (Fin 0)) with true; cbv iota.
  destruct (markValid_from_some msr
              (filter (fun x => le (d_diff x) (Fin 0)) (feeDiffFrom 1 (Some x) xs))
              (add (Fin 0) (Fin 0)) {| d_diff := Fin 0; d_est := x |}) as [l Hl].
  rewrite Hl; eexists; reflexivity.
Qed.

(** ** [sortByFee] packing *)

Lemma pack_txid : forall bs r l cum tb n,
  map txid (pack bs r cum tb n l) = map p_txid l.
Proof.
  intros bs r; induction l as [|tx l IH]; intros cum tb n; [reflexivity|].
  cbn [pack]; destruct (negb _); cbn [map]; rewrite IH; reflexivity.
Qed.

(** [sortByFee] outputs each key of the raw mempool exactly once. *)
Theorem sortByFee_txids_permutation : forall bs r txs,
  Permutation (map txid (sortByFee bs r txs)) (map fst txs).
Proof.
  intros bs r txs; unfold sortByFee; rewrite pack_txid.
  transitivity (map p_txid (map project txs)).
  - apply Permutation_map, Permutation_sym, jsort_perm.
  - rewrite map_map; apply Permutation_refl'; apply map_ext; intros [id t]; reflexivity.
Qed.

Section PackBlocks.
Variables blockSize ratio : Q.
Let bes := blockEffectiveSize blockSize ratio.

Lemma pack_block_interval : forall l cum tb,
  (inject_Z tb - 1) * bes <= cum -> cum <= inject_Z tb * bes ->
  Forall (fun p => 0 < p_size p /\ p_size p <= bes) l ->
  Forall (fun t => (inject_Z (targetBlock t) - 1) * bes < cumSize t /\
                   cumSize t <= inject_Z (targetBlock t) * bes)
         (pack blockSize ratio cum tb tb l).
Proof.
  induction l as [|p l IH]; intros cum tb H1 H2 Hl; [constructor|].
  inversion Hl as [|? ? [Hp1 Hp2] Hl']; subst.
  cbn [pack]; fold bes.
  destruct (Qle_bool (cum + p_size p) (inject_Z tb * bes)) eqn:E; cbn [negb].
  - apply Qle_bool_iff in E.
    constructor; [cbn; split; lra|].
    apply IH; [lra | exact E | exact Hl'].
  - assert (Hgt : inject_Z tb * bes < cum + p_size p)
      by (apply Qnot_le_lt; intro H; apply Qle_bool_iff in H; congruence).
    constructor; [cbn; rewrite inject_Z_plus; change (inject_Z 1) with 1; split; lra|].
    apply IH; try (rewrite inject_Z_plus; change (inject_Z 1) with 1; lra); exact Hl'.
Qed.

(** When every transaction is non-empty and fits in one block, [sortByFee]
    places each transaction in the block its [cumSize] falls in:
    [(targetBlock - 1) * blockEffectiveSize < cumSize <= targetBlock * blockEffectiveSize]. *)
Theorem sortByFee_block_interval : forall txs,
  Forall (fun e => 0 < r_size (snd e) /\ r_size (snd e) <= bes) txs ->
  Forall (fun t => (inject_Z (targetBlock t) - 1) * bes < cumSize t /\
                   cumSize t <= inject_Z (targetBlock t) * bes)
         (sortByFee blockSize ratio txs).
Proof.
  intros txs H; destruct txs as [|e0 txs0]; [constructor|].
  assert (Hb : 0 < bes) by (inversion H as [|? ? [Ha Hb] _]; subst; lra).
  unfold sortByFee.
  apply pack_block_interval; [change (inject_Z 1) with 1; lra | change (inject_Z 1) with 1; lra |].
  - apply (Forall_perm _ (map project (e0 :: txs0))); [apply jsort_perm|].
    apply Forall_map; refine (Forall_impl _ _ H).
    intros [id t] He; exact He.
Qed.

End PackBlocks.

Lemma sortByFee_block_interval_witness :
  Forall (fun t => (inject_Z (targetBlock t) - 1) * blockEffectiveSize 1000000 0 < cumSize t /\
                   cumSize t <= inject_Z (targetBlock t) * blockEffectiveSize 1000000 0)
         (sortByFee 1000000 0 [("a"%string, rawTx 600000 1200000); ("b"%string, rawTx 500000 500000)]).
Proof.
  apply sortByFee_block_interval.
  repeat constructor; unfold blockEffectiveSize; cbn; lra.
Defined.

Lemma pack_find_final : forall bs r l cum tb t x, (tb <= t)%Z ->
  find (fun tx => Z.eqb (targetBlock tx) (t + 1)) (pack bs r cum tb tb l) = Some x ->
  inject_Z t * blockEffectiveSize bs r < cumSize x.
Proof.
  intros bs r; induction l as [|p l IH]; intros cum tb t x Ht Hf; [discriminate|].
  cbn [pack] in Hf.
  destruct (Qle_bool (cum + p_size p) (inject_Z tb * blockEffectiveSize bs r)) eqn:E;
    cbn [negb find targetBlock withPos] in Hf.
  - replace (Z.eqb tb (t + 1)) with false in Hf by (symmetry; apply Z.eqb_neq; lia).
    exact (IH _ _ _ _ Ht Hf).
  - destruct (Z.eqb (tb + 1) (t + 1)) eqn:Et.
    + apply Z.eqb_eq in Et; injection Hf as <-; cbn [cumSize withPos].
      replace t with tb by lia.
      apply Qnot_le_lt; intro H; apply Qle_bool_iff in H; congruence.
    + apply Z.eqb_neq in Et; refine (IH _ _ _ _ _ Hf); lia.
Qed.

(** [finalPosition(t)] on a [sortByFee] snapshot is the [cumSize] of the
    first transaction of block [t + 1]; it always lies beyond the first
    [t] blocks: [cumSize > t * blockEffectiveSize]. *)
Theorem finalPosition_beyond_target : forall bs r txs t c, (1 <= t)%Z ->
  finalPosition t (sortByFee bs r txs) = Some c ->
  inject_Z t * blockEffectiveSize bs r < c.
Proof.
  intros bs r txs t c Ht Hc; unfold finalPosition, sortByFee in Hc.
  destruct (find _ _) as [x|] eqn:Hf; [|discriminate].
  injection Hc as <-; refine (pack_find_final _ _ _ _ _ _ _ _ Hf); lia.
Qed.

Lemma finalPosition_beyond_target_witness :
  (1 <= 1)%Z /\
  finalPosition 1 (sortByFee 1000000 0
    [("a"%string, rawTx 600000 1200000); ("b"%string, rawTx 500000 500000)]) = Some 1100000 /\
  inject_Z 1 * blockEffectiveSize 1000000 0 < 1100000.
Proof.
  assert (H : finalPosition 1 (sortByFee 1000000 0
    [("a"%string, rawTx 600000 1200000); ("b"%string, rawTx 500000 500000)]) = Some 1100000)
    by (vm_compute; reflexivity).
  split; [lia | split; [exact H | exact (finalPosition_beyond_target _ _ _ 1 _ ltac:(lia) H)]].
Defined.

(** ** lodash [minBy]: [getFeeTx] and [minFeeTx] *)

Lemma num_lt_fin : forall a b, num_lt (Fin a) (Fin b) = true <-> a < b.
Proof.
  intros a b; unfold num_lt, le; rewrite andb_true_iff, negb_true_iff, Qle_bool_iff.
  split.
  - intros [_ H]; apply Qnot_le_lt; intro H'; apply Qle_bool_iff in H'; congruence.
  - intros H; split; [lra|].
    destruct (Qle_bool b a) eqn:E; [apply Qle_bool_iff in E; lra | reflexivity].
Qed.

Section MinByFacts.
Context {A : Type} (f : A -> num) (g : A -> Q).

Lemma minBy_from_some : forall l b, Forall (fun y => f y = Fin (g y)) l ->
  (minBy_from f (Some (b, Fin (g b))) l = Some b /\ Forall (fun y => g b <= g y) l) \/
  (exists pre x post, l = pre ++ x :: post /\ minBy_from f (Some (b, Fin (g b))) l = Some x /\
     g x < g b /\ Forall (fun y => g x < g y) pre /\ Forall (fun y => g x <= g y) post).
Proof.
  induction l as [|y l IH]; intros b Hl; [left; split; [reflexivity | constructor]|].
  inversion Hl as [|? ? Hy Hl']; subst.
  cbn [minBy_from]; rewrite Hy.
  destruct (num_lt (Fin (g y)) (Fin (g b))) eqn:E.
  - apply num_lt_fin in E; right.
    destruct (IH y Hl') as [[Hr Hall] | (pre & x & post & Heq & Hr & Hlt & Hpre & Hpost)].
    + exists [], y, l; split; [reflexivity | split; [exact Hr | split; [exact E | split; [constructor | exact Hall]]]].
    + exists (y :: pre), x, post;
      split; [rewrite Heq; reflexivity | split; [exact Hr | split; [lra | split; [constructor; [lra | exact Hpre] | exact Hpost]]]].
  - assert (Hle : g b <= g y)
      by (apply Qnot_lt_le; intro H; apply num_lt_fin in H; congruence).
    destruct (IH b Hl') as [[Hr Hall] | (pre & x & post & Heq & Hr & Hlt & Hpre & Hpost)].
    + left; split; [exact Hr | constructor; assumption].
    + right; exists (y :: pre), x, post;
      split; [rewrite Heq; reflexivity | split; [exact Hr | split; [exact Hlt | split; [constructor; [lra | exact Hpre] | exact Hpost]]]].
Qed.

(** With numeric keys, [minBy] returns the first entry of least key. *)
Lemma minBy_first_min : forall l, l <> [] -> Forall (fun y => f y = Fin (g y)) l ->
  exists pre x post, l = pre ++ x :: post /\ minBy f l = Some x /\
    Forall (fun y => g x < g y) pre /\ Forall (fun y => g x <= g y) post.
Proof.
  intros [|y l] Hne Hl; [contradiction|].
  inversion Hl as [|? ? Hy Hl']; subst.
  unfold minBy; cbn [minBy_from]; rewrite Hy; cbn [isNaN].
  destruct (minBy_from_some l y Hl') as [[Hr Hall] | (pre & x & post & Heq & Hr & Hlt & Hpre & Hpost)].
  - exists [], y, l; split; [reflexivity | split; [exact Hr | split; [constructor | exact Hall]]].
  - exists (y :: pre), x, post;
    split; [rewrite Heq; reflexivity | split; [exact Hr | split; [constructor; [lra | exact Hpre] | exact Hpost]]].
Qed.

End MinByFacts.

(** [getFeeTx(pos, txs)] on a non-empty snapshot returns the transaction
    whose [cumSize] is closest to [pos]; among equally close ones, the
    first in snapshot order. *)
Theorem getFeeTx_closest : forall pos txs, txs <> [] ->
  exists pre x post, txs = pre ++ x :: post /\ getFeeTx (Fin pos) txs = Some x /\
    Forall (fun y => Qabs (cumSize x - pos) < Qabs (cumSize y - pos)) pre /\
    Forall (fun y => Qabs (cumSize x - pos) <= Qabs (cumSize y - pos)) post.
Proof.
  intros pos txs Hne; unfold getFeeTx.
  apply (minBy_first_min _ (fun y => Qabs (cumSize y - pos))); [exact Hne|].
  apply Forall_forall; intros y _; reflexivity.
Qed.

Lemma getFeeTx_closest_witness :
  let txs := sortByFee 1000000 0 [("a"%string, rawTx 100 300); ("b"%string, rawTx 100 200);
                                  ("c"%string, rawTx 100 100)] in
  txs <> [] /\
  (exists pre x post, txs = pre ++ x :: post /\ getFeeTx (Fin 250) txs = Some x /\
    Forall (fun y => Qabs (cumSize x - 250) < Qabs (cumSize y - 250)) pre /\
    Forall (fun y => Qabs (cumSize x - 250) <= Qabs (cumSize y - 250)) post) /\
  map cumSize txs = [100; 200; 300] /\
  option_map txid (getFeeTx (Fin 250) txs) = Some "b"%string.
Proof.
  intros txs.
  assert (H : txs <> []) by (vm_compute; discriminate).
  split; [exact H | split; [exact (getFeeTx_closest 250 txs H) |]].
  split; vm_compute; reflexivity.
Defined.

(** [minFeeTx] of [minedTxsSummary$]: on a non-empty mined set with numeric
    fee rates it is a mined transaction of the lowest fee rate. *)
Theorem minFeeTx_lowest : forall removed, removed <> [] ->
  Forall (fun t => exists q, feeRate t = Fin q) removed ->
  exists x, minFeeTx (sortMined removed) = Some x /\ In x removed /\
    forall y, In y removed -> le (feeRate x) (feeRate y) = true.
Proof.
  intros removed Hne Hfin.
  set (g := fun t : MempoolTx => match feeRate t with Fin q => q | _ => 0 end).
  assert (Hp : Permutation removed (sortMined removed)) by apply jsort_perm.
  assert (Hfin' : Forall (fun y => feeRate y = Fin (g y)) (sortMined removed)).
  { apply (Forall_perm _ removed); [exact Hp|].
    refine (Forall_impl _ _ Hfin); intros t [q Hq]; unfold g; rewrite Hq; reflexivity. }
  assert (Hne' : sortMined removed <> []).
  { intro E; apply Hne; apply Permutation_nil; rewrite E in Hp; apply Permutation_sym, Hp. }
  destruct (minBy_first_min feeRate g _ Hne' Hfin') as (pre & x & post & Heq & Hr & Hpre & Hpost).
  exists x; split; [exact Hr|]; split.
  - apply (Permutation_in x (Permutation_sym Hp)); rewrite Heq; apply in_or_app; right; left; reflexivity.
  - intros y Hy.
    apply (Permutation_in y Hp) in Hy; rewrite Heq in Hy.
    assert (Hxy : g x <= g y).
    { apply in_app_or in Hy as [Hy | [<- | Hy]].
      - rewrite Forall_forall in Hpre; apply Qlt_le_weak, Hpre, Hy.
      - apply Qle_refl.
      - rewrite Forall_forall in Hpost; apply Hpost, Hy. }
    rewrite Forall_forall in Hfin'.
    assert (Hx' : In x (sortMined removed)) by (rewrite Heq; apply in_or_app; right; left; reflexivity).
    assert (Hy' : In y (sortMined removed)) by (rewrite Heq; exact Hy).
    rewrite (Hfin' x Hx'), (Hfin' y Hy'); apply Qle_bool_iff, Hxy.
Qed.

Lemma minFeeTx_lowest_witness :
  minedBlock 3 <> [] /\
  exists x, minFeeTx (sortMined (minedBlock 3)) = Some x /\ In x (minedBlock 3) /\
    forall y, In y (minedBlock 3) -> le (feeRate x) (feeRate y) = true.
Proof.
  split; [discriminate|].
  apply minFeeTx_lowest; [discriminate|].
  repeat constructor; eexists; reflexivity.
Defined.

(** ** [memPooler$] deduplication *)

Lemma dedup_from_chain (isEqual : RawMempool -> RawMempool -> bool) : forall l acc,
  ~ In (snap_id acc) (map snap_id l) -> NoDup (map snap_id l) ->
  chain (fun a b => isEqual (snap_val a) (snap_val b) = false)
        (acc :: duc_from (fun a b => Nat.eqb (snap_id a) (snap_id b))
                         acc (scan_from (keepIfEqual isEqual) acc l)).
Proof.
  induction l as [|y l IH]; intros acc Hn Hd; [exact I|].
  cbn [map] in Hn, Hd; inversion Hd as [|? ? Hy Hd']; subst.
  cbn [scan_from duc_from].
  destruct (isEqual (snap_val acc) (snap_val y)) eqn:E.
  - replace (keepIfEqual isEqual acc y) with acc by (unfold keepIfEqual; rewrite E; reflexivity).
    rewrite Nat.eqb_refl; apply IH; [intro H; apply Hn; right; exact H | exact Hd'].
  - replace (keepIfEqual isEqual acc y) with y by (unfold keepIfEqual; rewrite E; reflexivity).
    replace (Nat.eqb (snap_id acc) (snap_id y)) with false
      by (symmetry; apply Nat.eqb_neq; intro H; apply Hn; left; auto).
    split; [exact E | apply IH; assumption].
Qed.

(** [memPooler$] re-emits a polled mempool only when lodash [isEqual]
    says it differs from the one kept before: two consecutive snapshots
    that [memPooler$] packs are never [isEqual] (each poll is a fresh
    object). *)
Theorem dedupSnapshots_consecutive_differ : forall isEqual polls,
  NoDup (map snap_id polls) ->
  chain (fun a b => isEqual (snap_val a) (snap_val b) = false) (dedupSnapshots isEqual polls).
Proof.
  intros isEqual [|x l] Hd; [exact I|].
  inversion Hd as [|? ? Hx Hd']; subst.
  unfold dedupSnapshots; cbn [scan distinctUntilChanged].
  apply dedup_from_chain; assumption.
Qed.

Lemma dedupSnapshots_consecutive_differ_witness :
  let isEq := fun a b : RawMempool => Nat.eqb (length a) (length b) in
  let polls := [{| snap_id := 0; snap_val := [] |}; {| snap_id := 1; snap_val := [] |};
                {| snap_id := 2; snap_val := [("a"%string, rawTx 1 1)] |}] in
  NoDup (map snap_id polls) /\
  chain (fun a b => isEq (snap_val a) (snap_val b) = false) (dedupSnapshots isEq polls).
Proof.
  intros isEq polls.
  assert (Hd : NoDup (map snap_id polls)) by (repeat constructor; cbn; intuition discriminate).
  split; [exact Hd | exact (dedupSnapshots_consecutive_differ isEq polls Hd)].
Defined.

(** ** Bytes ahead of a target block *)

Section AheadFacts.
Variable bes : Q.
Hypothesis Hbes : 0 <= bes.
Variable st : Q -> Sized -> Q.
Hypothesis st_mono : forall a1 a2 x, a1 <= a2 -> st a1 x <= st a2 x.
Hypothesis st_grows : forall a x, 0 <= s_size x -> a <= st a x.

Lemma aheadOf_fold_mono : forall l a1 a2 tb1 tb2, (tb1 <= tb2)%Z -> a1 <= a2 ->
  Forall (fun x => 0 <= s_size x) l ->
  fold_left st (aheadOf bes tb1 l) a1 <= fold_left st (aheadOf bes tb2 l) a2.
Proof.
  induction l as [|x l IH]; intros a1 a2 tb1 tb2 Ht Ha Hl; [exact Ha|].
  inversion Hl as [|? ? Hx Hl']; subst.
  assert (Hq : inject_Z tb1 * bes <= inject_Z tb2 * bes)
    by (apply Qmult_le_compat_r; [rewrite <- Zle_Qle; exact Ht | exact Hbes]).
  unfold aheadOf in *; cbn [filter].
  destruct (Qle_bool (inject_Z tb1 * bes) (s_cumSize x)) eqn:E1;
  destruct (Qle_bool (inject_Z tb2 * bes) (s_cumSize x)) eqn:E2; cbn [negb fold_left].
  - apply IH; assumption.
  - apply IH; [exact Ht | apply (Qle_trans _ a2); [exact Ha | apply st_grows, Hx] | exact Hl'].
  - apply Qle_bool_iff in E2.
    assert (Hc : inject_Z tb1 * bes <= s_cumSize x) by lra.
    apply Qle_bool_iff in Hc; congruence.
  - apply IH; [exact Ht | apply st_mono, Ha | exact Hl'].
Qed.

End AheadFacts.

Lemma Qscale_mono : forall x1 x2 d, x1 <= x2 -> 0 < d -> x1 / d <= x2 / d.
Proof.
  intros x1 x2 d H Hd; unfold Qdiv; apply Qmult_le_compat_r; [exact H|].
  apply Qlt_le_weak, Qinv_lt_0_compat, Hd.
Qed.

(** [addedBytesAheadTargetPer10min]: more bytes are counted ahead of a
    later target block (sizes non-negative, positive time interval). *)
Theorem addedBytesAhead_mono : forall bes intTimeAdded tb1 tb2 txs,
  0 <= bes -> 0 < intTimeAdded -> (tb1 <= tb2)%Z ->
  Forall (fun x => 0 <= s_size x) txs ->
  le (addedBytesAhead bes intTimeAdded tb1 txs) (addedBytesAhead bes intTimeAdded tb2 txs) = true.
Proof.
  intros bes i tb1 tb2 txs Hb Hi Ht Hl; unfold addedBytesAhead.
  assert (Hs : fold_left (fun acc tx => acc + s_size tx) (aheadOf bes tb1 txs) 0
               <= fold_left (fun acc tx => acc + s_size tx) (aheadOf bes tb2 txs) 0)
    by (apply aheadOf_fold_mono; try assumption; try apply Qle_refl; intros; cbv beta; lra).
  assert (HE : Qeq_bool i 0 = false)
    by (destruct (Qeq_bool i 0) eqn:E; [apply Qeq_bool_iff in E; lra | reflexivity]).
  unfold div; rewrite HE; cbn [mul le]; apply Qle_bool_iff.
  apply Qmult_le_compat_r; [apply Qmult_le_compat_r; [apply Qscale_mono; assumption | lra] | lra].
Qed.

Lemma addedBytesAhead_mono_witness :
  le (addedBytesAhead 1000000 600 1 [{| s_size := 300; s_cumSize := 300 |};
                                     {| s_size := 400; s_cumSize := 1000300 |}])
     (addedBytesAhead 1000000 600 2 [{| s_size := 300; s_cumSize := 300 |};
                                     {| s_size := 400; s_cumSize := 1000300 |}]) = true.
Proof.
  apply addedBytesAhead_mono; [lra | lra | lia | repeat constructor; cbn; lra].
Defined.

Lemma reduceWindow_fst : forall (w : list (list Sized * Q)) (acc : list Sized * Q),
  fst (fold_left (fun acc y => (fst acc ++ fst y, snd y + snd acc)) w acc)
  = fst acc ++ concat (map fst w).
Proof.
  induction w as [|y w IH]; intros acc; cbn [fold_left map concat].
  - rewrite app_nil_r; reflexivity.
  - rewrite IH; cbn [fst]; rewrite app_assoc; reflexivity.
Qed.

(** [removedBytesAheadTargetPer10min] on the window reduced by
    [bufferRemoved$]: more bytes are counted ahead of a later target block
    (sizes non-negative, positive total block interval). *)
Theorem removedBytesAhead_mono : forall bes w tb1 tb2,
  0 <= bes -> (tb1 <= tb2)%Z ->
  Forall (fun b => Forall (fun x => 0 <= s_size x) (fst b)) w ->
  0 < snd (reduceWindow w) ->
  le (removedBytesAhead bes tb1 (reduceWindow w)) (removedBytesAhead bes tb2 (reduceWindow w)) = true.
Proof.
  intros bes w tb1 tb2 Hb Ht Hw Hi.
  assert (Hl : Forall (fun x => 0 <= s_size x) (fst (reduceWindow w))).
  { unfold reduceWindow; rewrite reduceWindow_fst; cbn [fst app].
    apply Forall_forall; intros x Hx.
    apply in_concat in Hx as (l & Hl & Hx); apply in_map_iff in Hl as (b & <- & Hb').
    rewrite Forall_forall in Hw; exact (proj1 (Forall_forall _ _) (Hw b Hb') x Hx). }
  unfold removedBytesAhead.
  assert (Hs : fold_left (fun acc tx => s_size tx + acc) (aheadOf bes tb1 (fst (reduceWindow w))) 0
               <= fold_left (fun acc tx => s_size tx + acc) (aheadOf bes tb2 (fst (reduceWindow w))) 0)
    by (apply aheadOf_fold_mono; try assumption; try apply Qle_refl; intros; cbv beta; lra).
  set (i := snd (reduceWindow w)) in *.
  assert (Hd : 0 < i / 60000)
    by (unfold Qdiv; apply Qmult_lt_0_compat; [exact Hi | apply Qinv_lt_0_compat; lra]).
  assert (HE : Qeq_bool (i / 60000) 0 = false)
    by (destruct (Qeq_bool (i / 60000) 0) eqn:E; [apply Qeq_bool_iff in E; lra | reflexivity]).
  assert (Hin : div (Fin i) (Fin 60000) = Fin (i / 60000)) by reflexivity.
  rewrite Hin; unfold div; rewrite HE; cbn [mul le].
  apply Qle_bool_iff, Qmult_le_compat_r; [apply Qscale_mono; assumption | lra].
Qed.

Lemma removedBytesAhead_mono_witness :
  le (removedBytesAhead 1000000 1 (reduceWindow [([{| s_size := 300; s_cumSize := 300 |};
                                                   {| s_size := 400; s_cumSize := 1000300 |}], 600)]))
     (removedBytesAhead 1000000 2 (reduceWindow [([{| s_size := 300; s_cumSize := 300 |};
                                                   {| s_size := 400; s_cumSize := 1000300 |}], 600)]))
  = true.
Proof.
  apply removedBytesAhead_mono; [lra | lia | repeat constructor; cbn; lra | cbn; lra].
Defined.

(** ** Sorting by a numeric key *)

Section KeySort.
Context {A : Type} (k : A -> num) (kq : A -> Q).

Definition byKeyDesc (a b : A) : num := sub (k b) (k a).

Lemma byKeyDesc_Lt : forall x y, k x = Fin (kq x) -> k y = Fin (kq y) ->
  (sign (byKeyDesc x y) = Lt <-> kq y < kq x).
Proof.
  intros x y Hx Hy; unfold byKeyDesc; rewrite Hx, Hy; simpl.
  rewrite <- Qlt_alt; split; intros; lra.
Qed.

Lemma insert_key_sorted : forall l x, k x = Fin (kq x) ->
  Forall (fun y => k y = Fin (kq y)) l ->
  StronglySorted (fun a b => kq b <= kq a) l ->
  StronglySorted (fun a b => kq b <= kq a) (insert byKeyDesc x l).
Proof.
  induction l as [|y l IH]; intros x Hx Hl Hs; simpl.
  - repeat constructor.
  - inversion Hl as [|? ? Hy Hl']; subst.
    inversion Hs as [|? ? Hs' Hall]; subst.
    destruct (sign (byKeyDesc x y)) eqn:E.
    2: { assert (Hlt : kq y < kq x) by (apply byKeyDesc_Lt; assumption).
         constructor; [exact Hs|]. constructor; [lra|].
         rewrite Forall_forall in *; intros z Hz; specialize (Hall z Hz); lra. }
    all: assert (Hle : kq x <= kq y)
           by (apply Qnot_lt_le; intro Hlt; apply (byKeyDesc_Lt x y Hx Hy) in Hlt; congruence);
         constructor; [apply IH; assumption|];
         apply (Forall_perm _ (x :: l)); [apply insert_perm|];
         constructor; [exact Hle | exact Hall].
Qed.

Lemma jsort_key_sorted_acc : forall l acc,
  Forall (fun y => k y = Fin (kq y)) l -> Forall (fun y => k y = Fin (kq y)) acc ->
  StronglySorted (fun a b => kq b <= kq a) acc ->
  StronglySorted (fun a b => kq b <= kq a) (fold_left (fun acc x => insert byKeyDesc x acc) l acc).
Proof.
  induction l as [|x l IH]; intros acc Hl Hacc Hs; simpl; [exact Hs|].
  inversion Hl as [|? ? Hx Hl']; subst.
  apply IH; [exact Hl' | | apply insert_key_sorted; assumption].
  apply (Forall_perm _ (x :: acc)); [apply insert_perm | constructor; assumption].
Qed.

(** [jsort((a, b) => key(b) - key(a))] with numeric keys lists the keys
    in non-increasing order. *)
Lemma jsort_key_nonincreasing : forall l,
  Forall (fun y => k y = Fin (kq y)) l ->
  chain (fun a b => ge a b = true) (map k (jsort byKeyDesc l)).
Proof.
  intros l Hl.
  assert (Hf : Forall (fun y => k y = Fin (kq y)) (jsort byKeyDesc l))
    by (apply (Forall_perm _ l); [apply jsort_perm | exact Hl]).
  assert (Hs := jsort_key_sorted_acc l [] Hl (Forall_nil _) (SSorted_nil _)).
  fold (jsort byKeyDesc l) in Hs; revert Hf Hs.
  generalize (jsort byKeyDesc l) as m.
  induction m as [|x m IH]; intros Hf Hs; [exact I|].
  destruct m as [|y m]; [exact I|].
  inversion Hf as [|? ? Hx Hf']; inversion Hf' as [|? ? Hy _]; subst.
  inversion Hs as [|? ? Hs' Hall]; inversion Hall as [|? ? Hxy _]; subst.
  split; [|apply IH; assumption].
  cbn [map]; rewrite Hx, Hy; unfold ge; simpl; apply Qle_bool_iff, Hxy.
Qed.

End KeySort.

(** [minedTxsSummary$] sorts each mined set by non-increasing [feeRate]
    (numeric fee rates), so the tails taken by [minQuant] hold the lowest
    fee rates. *)
Theorem sortMined_nonincreasing : forall removed,
  Forall (fun t => exists q, feeRate t = Fin q) removed ->
  chain (fun a b => ge a b = true) (map feeRate (sortMined removed)) /\
  Permutation removed (sortMined removed).
Proof.
  intros removed H; split; [|apply jsort_perm].
  apply (jsort_key_nonincreasing feeRate
           (fun t => match feeRate t with Fin q => q | _ => 0 end)).
  refine (Forall_impl _ _ H); intros t [q Hq]; rewrite Hq; reflexivity.
Qed.

Lemma sortMined_nonincreasing_witness :
  chain (fun a b => ge a b = true) (map feeRate (sortMined (minedBlock 4))) /\
  Permutation (minedBlock 4) (sortMined (minedBlock 4)).
Proof.
  apply sortMined_nonincreasing; repeat constructor; eexists; reflexivity.
Defined.

(** The list published by [minDiff$], sorted with
    [(b, a) => cost(a) - cost(b)], runs from the highest cost to the
    lowest whenever every published cost is a number. *)
Theorem minDiff_cost_nonincreasing : forall msr sq xs out,
  minDiff msr sq xs = Some out ->
  Forall (fun e => exists q, cost sq e = Fin q) out ->
  chain (fun a b => ge a b = true) (map (cost sq) out).
Proof.
  intros msr sq xs out H Hf; unfold minDiff in H.
  destruct (markValid msr (Fin 0) None xs) as [l|]; [|discriminate].
  injection H as <-.
  change (jsort (byCost sq) (filter k_valid l))
    with (jsort (byKeyDesc (cost sq)) (filter k_valid l)) in *.
  apply (jsort_key_nonincreasing (cost sq)
           (fun e => match cost sq e with Fin q => q | _ => 0 end)).
  apply (Forall_perm _ (jsort (byKeyDesc (cost sq)) (filter k_valid l)));
    [apply Permutation_sym, jsort_perm|].
  refine (Forall_impl _ _ Hf); intros e [q Hq]; rewrite Hq; reflexivity.
Qed.

Lemma minDiff_cost_nonincreasing_witness :
  let ests := [{| est_feeRate := Fin 100; est_targetBlock := 1 |};
               {| est_feeRate := Fin 96; est_targetBlock := 2 |};
               {| est_feeRate := Fin 96; est_targetBlock := 3 |};
               {| est_feeRate := Fin 96; est_targetBlock := 4 |}] in
  let sq := fun q : Q => Qmake (Z.sqrt (Qnum q)) (Z.to_pos (Z.sqrt (Zpos (Qden q)))) in
  exists out, minDiff (-(1#2)) sq (feeDiff ests) = Some out /\
    Forall (fun e => exists q, cost sq e = Fin q) out /\
    chain (fun a b => ge a b = true) (map (cost sq) out) /\
    map (fun e => est_targetBlock (k_est e)) out = [2; 1; 3; 4]%Z /\
    map (fun e => match cost sq e with Fin q => Qred q | _ => 0 end) out = [2; 0; 0; 0].
Proof.
  intros ests sq.
  destruct (minDiff (-(1#2)) sq (feeDiff ests)) as [out|] eqn:E;
    [|vm_compute in E; discriminate].
  assert (Hf : Forall (fun e => exists q, cost sq e = Fin q) out).
  { vm_compute in E; injection E as E'; subst out; repeat constructor; eexists; reflexivity. }
  exists out; split; [reflexivity | split; [exact Hf|]].
  split; [exact (minDiff_cost_nonincreasing (-(1#2)) sq (feeDiff ests) out E Hf)|].
  vm_compute in E; injection E as E'; subst out; split; vm_compute; reflexivity.
Defined.

Lemma added_removed_disjoint_witness :
  let p := (sortByFee 1000000 0 [("a"%string, rawTx 1 1); ("b"%string, rawTx 1 1)],
            sortByFee 1000000 0 [("b"%string, rawTx 1 1); ("c"%string, rawTx 1 1)]) in
  let t := nth 0 (addedTxs p) (minedTx 0) in
  let u := nth 0 (differenceByTxid (fst p) (snd p)) (minedTx 0) in
  In t (addedTxs p) /\ In u (differenceByTxid (fst p) (snd p)) /\ txid t <> txid u.
Proof.
  intros p t u.
  assert (Ht : In t (addedTxs p)) by (vm_compute; left; reflexivity).
  assert (Hu : In u (differenceByTxid (fst p) (snd p))) by (vm_compute; left; reflexivity).
  split; [exact Ht | split; [exact Hu | exact (added_removed_disjoint p t u Ht Hu)]].
Defined.
